(** * The prism/visualization relay (visualization/index.js)

    A shallow embedding of the WebSocket relay script and the properties of
    its two module-level slots, [visSocket] and [prismSocket], of the
    ['message'] listeners it registers and of the payloads it forwards. *)

From Stdlib Require Import String Ascii.
From Stdlib Require Import List ZArith Lia Bool Arith.
Import ListNotations.

(** ** Run-time values

    The values a ['message'] listener of the [ws] package receives: a
    primitive string (text frame) or a Node [Buffer] (binary frame).  A
    JavaScript string is a sequence of UTF-16 code units, a [Buffer] a
    sequence of bytes. *)
Module JS.

Definition jsstring := list Z.

Inductive value : Type :=
| VStr (s : jsstring)
| VBuf (b : list Byte.byte).

Definition byte_val (b : Byte.byte) : Z := Z.of_N (Byte.to_N b).

(** A string literal of the script, one code unit per character. *)
Fixpoint lit (s : string) : jsstring :=
  match s with
  | EmptyString => []
  | String a s' => Z.of_N (N_of_ascii a) :: lit s'
  end.

(** *** [Buffer.prototype.toString()], that is UTF-8 decoding

    The decoder replaces every maximal ill-formed subsequence by U+FFFD.
    [pending] is a multi-byte sequence under way: the bits gathered so
    far, the number of continuation bytes still needed, and the range
    allowed for the next byte. *)
Record pending : Type := mkPending {
  code_point : Z;
  bytes_needed : Z;
  lower_boundary : Z;
  upper_boundary : Z
}.

Definition replacement : Z := 0xFFFD.

Definition within (lo hi b : Z) : bool := (lo <=? b)%Z && (b <=? hi)%Z.

(** A byte met while no sequence is under way. *)
Definition lead (b : Z) : list Z * option pending :=
  if within 0x00 0x7F b then ([b], None)
  else if within 0xC2 0xDF b then
    ([], Some (mkPending (Z.land b 0x1F) 1 0x80 0xBF))
  else if within 0xE0 0xEF b then
    ([], Some (mkPending (Z.land b 0x0F) 2
                 (if (b =? 0xE0)%Z then 0xA0 else 0x80)
                 (if (b =? 0xED)%Z then 0x9F else 0xBF)))
  else if within 0xF0 0xF4 b then
    ([], Some (mkPending (Z.land b 0x07) 3
                 (if (b =? 0xF0)%Z then 0x90 else 0x80)
                 (if (b =? 0xF4)%Z then 0x8F else 0xBF)))
  else ([replacement], None).

Fixpoint utf8_decode (p : option pending) (bs : list Z) : list Z :=
  match bs with
  | [] => match p with None => [] | Some _ => [replacement] end
  | b :: bs' =>
      match p with
      | None => fst (lead b) ++ utf8_decode (snd (lead b)) bs'
      | Some q =>
          if within (lower_boundary q) (upper_boundary q) b then
            let cp := Z.lor (Z.shiftl (code_point q) 6) (Z.land b 0x3F) in
            if (bytes_needed q =? 1)%Z then cp :: utf8_decode None bs'
            else utf8_decode
                   (Some (mkPending cp (bytes_needed q - 1) 0x80 0xBF)) bs'
          else
            (* the byte is not consumed by the broken sequence *)
            replacement :: fst (lead b) ++ utf8_decode (snd (lead b)) bs'
      end
  end.

(** A code point as UTF-16 code units. *)
Definition utf16 (cp : Z) : list Z :=
  if (cp <? 0x10000)%Z then [cp]
  else [ (0xD800 + Z.shiftr (cp - 0x10000) 10)%Z;
         (0xDC00 + Z.land (cp - 0x10000) 0x3FF)%Z ].

Definition buffer_toString (b : list Byte.byte) : jsstring :=
  flat_map utf16 (utf8_decode None (map byte_val b)).

(** The abstract operation ToString, which a template literal applies to
    each substitution: the identity on a string, [toString()] on a
    [Buffer]. *)
Definition ToString (v : value) : jsstring :=
  match v with
  | VStr s => s
  | VBuf b => buffer_toString b
  end.

(** [`${v}`]: a template literal made of the single substitution [v],
    with nothing before or after it. *)
Definition template (v : value) : value := VStr (ToString v).

End JS.

Import JS.

(** ** The state of the process *)

(** A WebSocket object, named by its identity; a variable of the script
    holds [null] or a reference to one. *)
Definition socket := nat.
Definition ref := option socket.

Inductive log_entry : Type :=
| LogText (s : string)
| LogValue (v : value).

(** [visSocket] and [prismSocket] are the two [let] variables of the module.
    [listeners] has one entry per call of [on('message', ...)], naming the
    socket the listener was registered on, in registration order: the
    listener is the same arrow function each time, and it closes over the
    module variables only.  [sent] lists the calls of [send], oldest first,
    with the receiving socket and the data; [console] the calls of
    [console.log]. *)
Record state : Type := mkState {
  visSocket : ref;
  prismSocket : ref;
  listeners : list socket;
  sent : list (socket * value);
  console : list log_entry
}.

(** ** Statements: state and exceptions *)

Inductive error : Type :=
| TypeError (property : string).

Inductive result (A : Type) : Type :=
| Ok (a : A) (st : state)
| Throw (e : error).

Arguments Ok {A} a st.
Arguments Throw {A} e.

Definition M (A : Type) : Type := state -> result A.

Definition ret {A} (a : A) : M A := fun st => Ok a st.

Definition bind {A B} (m : M A) (k : A -> M B) : M B :=
  fun st => match m st with
            | Ok a st' => k a st'
            | Throw e => Throw e
            end.

Declare Scope relay_scope.
Delimit Scope relay_scope with relay.
Notation "x <- m ;; k" := (bind m (fun x => k))
  (at level 61, m at next level, right associativity) : relay_scope.
Notation "m ;; k" := (bind m (fun _ => k))
  (at level 61, right associativity) : relay_scope.
Local Open Scope relay_scope.

Definition read {A} (f : state -> A) : M A := fun st => Ok (f st) st.

Definition set_visSocket (r : ref) : M unit :=
  fun st => Ok tt (mkState r (prismSocket st) (listeners st) (sent st) (console st)).

Definition set_prismSocket (r : ref) : M unit :=
  fun st => Ok tt (mkState (visSocket st) r (listeners st) (sent st) (console st)).

Definition console_log (e : log_entry) : M unit :=
  fun st => Ok tt (mkState (visSocket st) (prismSocket st) (listeners st) (sent st)
                     (console st ++ [e])).

(** [r.on('message', listener)]: reading a property of [null] throws. *)
Definition on_message_of (r : ref) : M unit :=
  fun st => match r with
            | None => Throw (TypeError "on")
            | Some s =>
                Ok tt (mkState (visSocket st) (prismSocket st) (listeners st ++ [s])
                         (sent st) (console st))
            end.

(** [r.send(data)]: the call is recorded in [sent].  What the transport
    does with it afterwards, on a socket whose peer has gone, is the
    library's business and is not part of this model; the only exception
    below is the [TypeError] of a method call on [null]. *)
Definition send_of (r : ref) (data : value) : M unit :=
  fun st => match r with
            | None => Throw (TypeError "send")
            | Some s =>
                Ok tt (mkState (visSocket st) (prismSocket st) (listeners st)
                         (sent st ++ [(s, data)]) (console st))
            end.

(** [r == null] and [r !== null]; a variable here holds [null] or an
    object, never [undefined]. *)
Definition is_null (r : ref) : bool :=
  match r with None => true | Some _ => false end.

Definition not_null (r : ref) : bool := negb (is_null r).

(** ** The script *)

(** The listener registered on a prism socket (lines 18-22). *)
Definition on_message (message : value) : M unit :=
  console_log (LogValue message) ;;
  vis <- read visSocket ;;
  if not_null vis then send_of vis (template message) else ret tt.

(** The ['connection'] listener of the server (lines 8-24). *)
Definition on_connection (ws : socket) : M unit :=
  vis <- read visSocket ;;
  (if is_null vis then
     set_visSocket (Some ws) ;;
     console_log (LogText "Connected to visualization")
   else
     set_prismSocket (Some ws) ;;
     console_log (LogText "Connected to prism")) ;;
  prism <- read prismSocket ;;
  if not_null prism then on_message_of prism else ret tt.

(** The module body: both slots [null], no listener yet, one line logged. *)
Definition init : state :=
  mkState None None [] []
    [LogText "Waiting for incoming of visualization and prism"].

(** ** Events

    The server emits ['connection'] with the socket it has created for the
    new peer; a socket emits ['message'] with the data received.  Emitting
    an event calls, in registration order, the listeners registered for it
    at that moment. *)
Inductive event : Type :=
| Connection (ws : socket)
| Message (from : socket) (data : value).

Fixpoint call_each (hs : list socket) (data : value) : M unit :=
  match hs with
  | [] => ret tt
  | _ :: hs' => on_message data ;; call_each hs' data
  end.

Definition emit_message (from : socket) (data : value) : M unit :=
  hs <- read (fun st => filter (Nat.eqb from) (listeners st)) ;;
  call_each hs data.

Definition step (ev : event) : M unit :=
  match ev with
  | Connection ws => on_connection ws
  | Message from data => emit_message from data
  end.

Fixpoint run (tr : list event) : M unit :=
  match tr with
  | [] => ret tt
  | ev :: tr' => step ev ;; run tr'
  end.

(** The sockets handed to the ['connection'] listener, in order. *)
Fixpoint connections (tr : list event) : list socket :=
  match tr with
  | [] => []
  | Connection ws :: tr' => ws :: connections tr'
  | Message _ _ :: tr' => connections tr'
  end.

(** A stretch of the trace without any connection. *)
Definition messages (ms : list (socket * value)) : list event :=
  map (fun m => Message (fst m) (snd m)) ms.

(** The server constructs a new socket for every peer it accepts. *)
Definition fresh_sockets (tr : list event) : Prop := NoDup (connections tr).

(** The state the process is in after the events of [tr]. *)
Definition after (tr : list event) (st : state) : Prop := run tr init = Ok tt st.

Definition reachable (st : state) : Prop :=
  exists tr, fresh_sockets tr /\ after tr st.

(** The last element of a list, if any. *)
Definition last_error {A} (l : list A) : option A :=
  match l with
  | [] => None
  | x :: l' => Some (last l' x)
  end.

(** What one call of the listener passes to [send], given the slot. *)
Definition forwarded (vis : ref) (message : value) : list (socket * value) :=
  match vis with
  | None => []
  | Some v => [(v, template message)]
  end.

(** ** What the console and a peer can observe *)

(** The messages the listeners have passed to [console.log], in order. *)
Fixpoint logged_values (l : list log_entry) : list value :=
  match l with
  | [] => []
  | LogValue v :: l' => v :: logged_values l'
  | LogText _ :: l' => logged_values l'
  end.

(** The relay as a function of the trace, for comparison with the script:
    [first] is the socket accepted first, if any, [prisms] the sockets
    accepted after it so far.  A message is passed on, as a string, to
    [first] when its sender is one of [prisms], and dropped otherwise. *)
Fixpoint relayed (first : ref) (prisms : list socket) (tr : list event)
  : list (socket * value) :=
  match tr with
  | [] => []
  | Connection ws :: tr' =>
      match first with
      | None => relayed (Some ws) prisms tr'
      | Some _ => relayed first (prisms ++ [ws]) tr'
      end
  | Message from data :: tr' =>
      match first with
      | Some v =>
          if existsb (Nat.eqb from) prisms
          then (v, template data) :: relayed first prisms tr'
          else relayed first prisms tr'
      | None => relayed first prisms tr'
      end
  end.

(** The calls of [console.log] as a function of the trace, for comparison
    with the script, with [first] and [prisms] as in [relayed]: a line per
    connection, and the message itself, as received, for every message
    whose sender is one of [prisms]. *)
Fixpoint transcript (first : ref) (prisms : list socket) (tr : list event)
  : list log_entry :=
  match tr with
  | [] => []
  | Connection ws :: tr' =>
      match first with
      | None =>
          LogText "Connected to visualization" :: transcript (Some ws) prisms tr'
      | Some _ =>
          LogText "Connected to prism" :: transcript first (prisms ++ [ws]) tr'
      end
  | Message from data :: tr' =>
      if existsb (Nat.eqb from) prisms
      then LogValue data :: transcript first prisms tr'
      else transcript first prisms tr'
  end.

(** ** Sample states

    The process after sockets 10 and 20 have connected, and after socket 30
    has connected too. *)
Definition two_connected : state :=
  mkState (Some 10) (Some 20) [20] []
    [LogText "Waiting for incoming of visualization and prism";
     LogText "Connected to visualization";
     LogText "Connected to prism"].

Definition three_connected : state :=
  mkState (Some 10) (Some 30) [20; 30] []
    [LogText "Waiting for incoming of visualization and prism";
     LogText "Connected to visualization";
     LogText "Connected to prism";
     LogText "Connected to prism"].

(** ** Examples *)

Example after_two_connected : after [Connection 10; Connection 20] two_connected.
Proof. reflexivity. Qed.

Example after_three_connected :
  after [Connection 10; Connection 20; Connection 30] three_connected.
Proof. reflexivity. Qed.

Example fresh_two : fresh_sockets [Connection 10; Connection 20].
Proof.
  unfold fresh_sockets; simpl.
  constructor; [simpl; intros [H|[]]; discriminate|].
  constructor; [intros []|constructor].
Qed.

Example decode_ascii :
  buffer_toString [Byte.x68; Byte.x69] = lit "hi".
Proof. reflexivity. Qed.

Example decode_euro :
  buffer_toString [Byte.xe2; Byte.x82; Byte.xac] = [0x20AC%Z].
Proof. reflexivity. Qed.

Example decode_astral :
  buffer_toString [Byte.xf0; Byte.x9f; Byte.x98; Byte.x80] = [0xD83D%Z; 0xDE00%Z].
Proof. reflexivity. Qed.

Example decode_truncated :
  buffer_toString [Byte.xe2; Byte.x82; Byte.x41] = [0xFFFD%Z; 0x41%Z].
Proof. reflexivity. Qed.

Example decode_invalid :
  buffer_toString [Byte.xff] = [0xFFFD%Z].
Proof. reflexivity. Qed.

Example two_peers :
  run [Connection 10; Connection 20;
       Message 20 (VStr (lit "hello")); Message 20 (VStr (lit "world"))] init
  = Ok tt (mkState (Some 10) (Some 20) [20]
             [(10, VStr (lit "hello")); (10, VStr (lit "world"))]
             [LogText "Waiting for incoming of visualization and prism";
              LogText "Connected to visualization";
              LogText "Connected to prism";
              LogValue (VStr (lit "hello"));
              LogValue (VStr (lit "world"))]).
Proof. reflexivity. Qed.

Example lone_peer :
  run [Connection 20; Message 20 (VStr (lit "ping"))] init
  = Ok tt (mkState (Some 20) None [] []
             [LogText "Waiting for incoming of visualization and prism";
              LogText "Connected to visualization"]).
Proof. reflexivity. Qed.

Example three_peers :
  run [Connection 10; Connection 20; Connection 30;
       Message 20 (VStr (lit "a")); Message 30 (VBuf [Byte.xff])] init
  = Ok tt (mkState (Some 10) (Some 30) [20; 30]
             [(10, VStr (lit "a")); (10, VStr [0xFFFD%Z])]
             [LogText "Waiting for incoming of visualization and prism";
              LogText "Connected to visualization";
              LogText "Connected to prism";
              LogText "Connected to prism";
              LogValue (VStr (lit "a"));
              LogValue (VBuf [Byte.xff])]).
Proof. reflexivity. Qed.

(** ** The listeners, one call at a time *)

Section Calls.

Variable st : state.

Lemma on_message_spec (message : value) :
  on_message message st =
  Ok tt (mkState (visSocket st) (prismSocket st) (listeners st)
           (sent st ++ forwarded (visSocket st) message)
           (console st ++ [LogValue message])).
Proof.
  unfold on_message, bind, console_log, read, send_of, ret, forwarded; simpl.
  destruct (visSocket st); simpl; [reflexivity|].
  now rewrite app_nil_r.
Qed.

Lemma on_connection_first (ws : socket) :
  visSocket st = None ->
  on_connection ws st =
  match prismSocket st with
  | None =>
      Ok tt (mkState (Some ws) None (listeners st) (sent st)
               (console st ++ [LogText "Connected to visualization"]))
  | Some p =>
      Ok tt (mkState (Some ws) (Some p) (listeners st ++ [p]) (sent st)
               (console st ++ [LogText "Connected to visualization"]))
  end.
Proof.
  intros Hv.
  unfold on_connection, bind, read, set_visSocket, console_log, on_message_of, ret.
  rewrite Hv; simpl.
  destruct (prismSocket st); reflexivity.
Qed.

Lemma on_connection_later (ws v : socket) :
  visSocket st = Some v ->
  on_connection ws st =
  Ok tt (mkState (Some v) (Some ws) (listeners st ++ [ws]) (sent st)
           (console st ++ [LogText "Connected to prism"])).
Proof.
  intros Hv.
  unfold on_connection, bind, read, set_prismSocket, console_log, on_message_of, ret.
  rewrite Hv; simpl. now rewrite Hv.
Qed.

End Calls.

Lemma call_each_spec (hs : list socket) (message : value) :
  forall st,
    call_each hs message st =
    Ok tt (mkState (visSocket st) (prismSocket st) (listeners st)
             (sent st ++ concat (repeat (forwarded (visSocket st) message) (length hs)))
             (console st ++ repeat (LogValue message) (length hs))).
Proof.
  induction hs as [|h hs IH]; intros st; simpl.
  - unfold ret. rewrite !app_nil_r. now destruct st.
  - unfold bind. rewrite on_message_spec, IH. simpl.
    now rewrite <- !app_assoc.
Qed.

(** The number of listeners a socket has. *)
Lemma filter_eqb_length (c : socket) (l : list socket) :
  length (filter (Nat.eqb c) l) = count_occ Nat.eq_dec l c.
Proof.
  induction l as [|x l IH]; simpl; [reflexivity|].
  destruct (Nat.eqb_spec c x) as [->|Hne].
  - destruct (Nat.eq_dec x x); [simpl; now rewrite IH | congruence].
  - destruct (Nat.eq_dec x c); [congruence | exact IH].
Qed.

Lemma emit_message_spec (from : socket) (message : value) (st : state) :
  emit_message from message st =
  Ok tt (mkState (visSocket st) (prismSocket st) (listeners st)
           (sent st ++ concat (repeat (forwarded (visSocket st) message)
                                 (count_occ Nat.eq_dec (listeners st) from)))
           (console st ++ repeat (LogValue message)
                            (count_occ Nat.eq_dec (listeners st) from))).
Proof.
  unfold emit_message, bind, read.
  now rewrite call_each_spec, filter_eqb_length.
Qed.

(** No event makes the script throw. *)
Lemma step_total (ev : event) (st : state) :
  exists st', step ev st = Ok tt st'.
Proof.
  destruct ev as [ws|from data]; simpl.
  - destruct (visSocket st) as [v|] eqn:Hv.
    + rewrite (on_connection_later st ws v Hv). eauto.
    + rewrite (on_connection_first st ws Hv). destruct (prismSocket st); eauto.
  - rewrite emit_message_spec. eauto.
Qed.

Lemma run_app (tr1 tr2 : list event) :
  forall st,
    run (tr1 ++ tr2) st =
    match run tr1 st with
    | Ok _ st' => run tr2 st'
    | Throw e => Throw e
    end.
Proof.
  induction tr1 as [|ev tr1 IH]; intros st; simpl; [reflexivity|].
  unfold bind. destruct (step ev st) as [[] st'|e]; [apply IH | reflexivity].
Qed.

Lemma run_total (tr : list event) :
  forall st, exists st', run tr st = Ok tt st'.
Proof.
  induction tr as [|ev tr IH]; intros st; simpl.
  - unfold ret. eauto.
  - unfold bind. destruct (step_total ev st) as [st1 ->]. apply IH.
Qed.

Lemma run_snoc (tr : list event) (ev : event) (st st1 : state) :
  run tr st = Ok tt st1 ->
  run (tr ++ [ev]) st = step ev st1.
Proof.
  intros H. rewrite run_app, H. simpl. unfold bind, ret.
  now destruct (step ev st1) as [[] ?|].
Qed.

(** ** Traces *)

Lemma connections_app (tr1 tr2 : list event) :
  connections (tr1 ++ tr2) = connections tr1 ++ connections tr2.
Proof.
  induction tr1 as [|[ws|from data] tr1 IH]; simpl; [reflexivity| |exact IH].
  now rewrite IH.
Qed.

Lemma connections_messages (ms : list (socket * value)) :
  connections (messages ms) = [].
Proof. induction ms as [|m ms IH]; simpl; [reflexivity | exact IH]. Qed.

Lemma last_error_snoc {A} (l : list A) (x : A) : last_error (l ++ [x]) = Some x.
Proof.
  destruct l as [|y l]; simpl; [reflexivity|].
  f_equal. revert y. induction l as [|z l IH]; intros y; simpl; [reflexivity|].
  destruct (l ++ [x]) eqn:E; [now destruct l | apply IH].
Qed.

(** The slots and the listeners after any trace, in closed form: the first
    socket accepted is in [visSocket], the last one accepted after it is in
    [prismSocket], and every socket accepted after the first has a
    listener. *)
Lemma slots_after (tr : list event) :
  exists st,
    after tr st /\
    visSocket st = hd_error (connections tr) /\
    prismSocket st = last_error (tl (connections tr)) /\
    listeners st = tl (connections tr).
Proof.
  unfold after.
  induction tr as [|ev tr IH] using rev_ind.
  - exists init. repeat split.
  - destruct IH as (st & Hrun & Hv & Hp & Hl).
    rewrite (run_snoc tr ev init st Hrun), connections_app.
    destruct ev as [ws|from data]; simpl.
    + destruct (connections tr) as [|c cs] eqn:Hc; simpl in *.
      * rewrite (on_connection_first st ws Hv), Hp.
        eexists; split; [reflexivity|]. simpl. now rewrite Hl.
      * rewrite (on_connection_later st ws c Hv).
        eexists; split; [reflexivity|]. simpl.
        now rewrite last_error_snoc, Hl.
    + rewrite emit_message_spec, app_nil_r.
      eexists; split; [reflexivity|]. simpl. auto.
Qed.

Lemma after_unique (tr : list event) (st st' : state) :
  after tr st -> after tr st' -> st = st'.
Proof. unfold after. congruence. Qed.

(** ** What a step keeps, from any state *)

Lemma step_visSocket (ev : event) (st st' : state) (v : socket) :
  visSocket st = Some v -> step ev st = Ok tt st' -> visSocket st' = Some v.
Proof.
  intros Hv. destruct ev as [ws|from data]; simpl.
  - rewrite (on_connection_later st ws v Hv). now intros [= <-].
  - rewrite emit_message_spec. now intros [= <-].
Qed.

Lemma run_visSocket (tr : list event) (v : socket) :
  forall st st',
    visSocket st = Some v -> run tr st = Ok tt st' -> visSocket st' = Some v.
Proof.
  induction tr as [|ev tr IH]; intros st st' Hv; simpl.
  - unfold ret. now intros [= <-].
  - unfold bind. destruct (step ev st) as [[] st1|e] eqn:Hs; [|discriminate].
    apply IH. eapply step_visSocket; eauto.
Qed.

Lemma step_listeners (ev : event) (st st' : state) :
  step ev st = Ok tt st' -> exists l, listeners st' = listeners st ++ l.
Proof.
  destruct ev as [ws|from data]; simpl.
  - destruct (visSocket st) as [v|] eqn:Hv.
    + rewrite (on_connection_later st ws v Hv). intros [= <-]. simpl. eauto.
    + rewrite (on_connection_first st ws Hv).
      destruct (prismSocket st); intros [= <-]; simpl; eauto.
      exists []. now rewrite app_nil_r.
  - rewrite emit_message_spec. intros [= <-]. simpl.
    exists []. now rewrite app_nil_r.
Qed.

Lemma run_listeners (tr : list event) :
  forall st st',
    run tr st = Ok tt st' -> exists l, listeners st' = listeners st ++ l.
Proof.
  induction tr as [|ev tr IH]; intros st st'; simpl.
  - unfold ret. intros [= <-]. exists []. now rewrite app_nil_r.
  - unfold bind. destruct (step ev st) as [[] st1|e] eqn:Hs; [|discriminate].
    intros Hr. destruct (step_listeners _ _ _ Hs) as [l1 H1].
    destruct (IH _ _ Hr) as [l2 H2].
    exists (l1 ++ l2). now rewrite H2, H1, app_assoc.
Qed.

(** A burst of messages, from any state: every listener call sends once
    if the slot is set. *)
Lemma run_messages (ms : list (socket * value)) :
  forall st,
    exists st',
      run (messages ms) st = Ok tt st' /\
      visSocket st' = visSocket st /\
      prismSocket st' = prismSocket st /\
      listeners st' = listeners st /\
      sent st' = sent st ++
        flat_map (fun m : socket * value =>
                    concat (repeat (forwarded (visSocket st) (snd m))
                                     (count_occ Nat.eq_dec (listeners st) (fst m))))
                 ms.
Proof.
  induction ms as [|m ms IH]; intros st; simpl.
  - exists st. unfold ret. now rewrite app_nil_r.
  - unfold bind. rewrite emit_message_spec.
    match goal with |- context [run _ ?s] => destruct (IH s) as (st' & Hr & Hv & Hp & Hl & Hs) end.
    exists st'. simpl in *. rewrite Hr, Hs, app_assoc. auto.
Qed.

Lemma count_occ_NoDup_In (l : list nat) (c : nat) :
  NoDup l -> In c l -> count_occ Nat.eq_dec l c = 1.
Proof.
  intros Hnd Hin.
  pose proof (proj1 (NoDup_count_occ Nat.eq_dec l) Hnd c) as Hle.
  pose proof (proj1 (count_occ_In Nat.eq_dec l c) Hin) as Hge.
  lia.
Qed.

Lemma after_shape (tr : list event) (st : state) :
  after tr st ->
  visSocket st = hd_error (connections tr) /\
  prismSocket st = last_error (tl (connections tr)) /\
  listeners st = tl (connections tr).
Proof.
  intros H. destruct (slots_after tr) as (st0 & H0 & Hshape).
  now rewrite (after_unique tr st st0 H H0).
Qed.

Lemma after_app (tr1 tr2 : list event) (st1 st2 : state) :
  after tr1 st1 -> run tr2 st1 = Ok tt st2 -> after (tr1 ++ tr2) st2.
Proof. unfold after. intros H1 H2. now rewrite run_app, H1. Qed.

(** With a new socket per peer, no socket has two listeners and the
    visualization socket has none. *)
Lemma fresh_listeners (tr : list event) (st : state) :
  fresh_sockets tr -> after tr st ->
  NoDup (listeners st) /\
  forall v, visSocket st = Some v -> ~ In v (listeners st).
Proof.
  unfold fresh_sockets. intros Hnd Ha.
  destruct (after_shape tr st Ha) as (Hv & _ & Hl). rewrite Hv, Hl.
  destruct (connections tr) as [|c cs]; simpl.
  - split; [constructor | discriminate].
  - inversion Hnd; subst. split; [assumption|]. now intros v [= <-].
Qed.

Lemma flat_map_singletons {A B} (f : A -> list B) (g : A -> B) (l : list A) :
  (forall a, In a l -> f a = [g a]) -> flat_map f l = map g l.
Proof.
  induction l as [|a l IH]; intros H; simpl; [reflexivity|].
  rewrite (H a (or_introl eq_refl)), IH; [reflexivity|].
  intros b Hb. apply H. now right.
Qed.

Lemma after_two_connections (a b : socket) (ms0 ms1 ms2 : list (socket * value)) :
  exists st,
    after (messages ms0 ++ Connection a :: messages ms1 ++
           Connection b :: messages ms2) st /\
    visSocket st = Some a /\ prismSocket st = Some b /\ listeners st = [b].
Proof.
  destruct (slots_after (messages ms0 ++ Connection a :: messages ms1 ++
                         Connection b :: messages ms2))
    as (st & H & Hv & Hp & Hl).
  rewrite connections_app in Hv, Hp, Hl. simpl in *.
  rewrite connections_app in Hv, Hp, Hl. simpl in *.
  rewrite !connections_messages in *. simpl in *.
  exists st. auto.
Qed.

Lemma concat_repeat_singleton {A} (x : A) (n : nat) :
  concat (repeat [x] n) = repeat x n.
Proof. induction n as [|n IH]; simpl; [reflexivity | now rewrite IH]. Qed.

(** A message event in a state whose visualization slot is set: one
    payload per listener of the sending socket. *)
Lemma step_message_set (st : state) (v from : socket) (m : value) :
  visSocket st = Some v ->
  step (Message from m) st =
  Ok tt (mkState (Some v) (prismSocket st) (listeners st)
           (sent st ++ repeat (v, template m)
                         (count_occ Nat.eq_dec (listeners st) from))
           (console st ++ repeat (LogValue m)
                            (count_occ Nat.eq_dec (listeners st) from))).
Proof.
  intros Hv. simpl. rewrite emit_message_spec, Hv. simpl.
  now rewrite concat_repeat_singleton.
Qed.

Lemma concat_repeat_nil {A} (n : nat) : concat (repeat (@nil A) n) = [].
Proof. induction n as [|n IH]; simpl; [reflexivity | exact IH]. Qed.

(** A message event in a state whose visualization slot is unset. *)
Lemma step_message_unset (st : state) (from : socket) (m : value) :
  visSocket st = None ->
  step (Message from m) st =
  Ok tt (mkState None (prismSocket st) (listeners st) (sent st)
           (console st ++ repeat (LogValue m)
                            (count_occ Nat.eq_dec (listeners st) from))).
Proof.
  intros Hv. simpl. rewrite emit_message_spec, Hv. simpl.
  now rewrite concat_repeat_nil, app_nil_r.
Qed.

Lemma forwarded_payloads (vis : ref) (m : value) (n : nat) :
  Forall (fun e : socket * value => snd e = template m)
         (concat (repeat (forwarded vis m) n)).
Proof.
  induction n as [|n IH]; simpl; [constructor|].
  apply Forall_app. split; [|exact IH].
  destruct vis; simpl; repeat constructor.
Qed.

(** ** The claims *)

(** C1, as stated, fails: a [Buffer] received by the listener of the prism
    socket is not what the visualization socket is sent; the string made
    from it is. *)
Lemma C1_buffer_is_not_sent_unmodified :
  run [Connection 10; Connection 20; Message 20 (VBuf [Byte.xff])] init
  = Ok tt (mkState (Some 10) (Some 20) [20]
             [(10, VStr [0xFFFD%Z])]
             [LogText "Waiting for incoming of visualization and prism";
              LogText "Connected to visualization";
              LogText "Connected to prism";
              LogValue (VBuf [Byte.xff])])
  /\ (10, VStr [0xFFFD%Z]) <> (10, VBuf [Byte.xff]).
Proof. split; [reflexivity | discriminate]. Qed.

(** C1, amended: for every message [m] a listener receives while the
    visualization slot is set, the visualization socket is sent exactly one
    payload, the string [`${m}`] made from [m] (which is [m] itself when [m]
    is a string); and the payloads are sent in the order in which the
    listeners received the messages. *)
Theorem C1_one_coerced_copy_in_order :
  forall (tr : list event) (st : state) (v : socket),
    fresh_sockets tr -> after tr st -> visSocket st = Some v ->
    (forall m, exists st',
        on_message m st = Ok tt st' /\
        sent st' = sent st ++ [(v, template m)]) /\
    (forall ms : list (socket * value),
        (forall m, In m ms -> In (fst m) (listeners st)) ->
        exists st',
          run (messages ms) st = Ok tt st' /\
          sent st' = sent st ++ map (fun m => (v, template (snd m))) ms) /\
    (forall s, template (VStr s) = VStr s).
Proof.
  intros tr st v Hfresh Hafter Hv. repeat split.
  - intros m. rewrite on_message_spec, Hv. eexists; split; reflexivity.
  - intros ms Hms.
    destruct (run_messages ms st) as (st' & Hr & _ & _ & _ & Hs).
    exists st'. split; [exact Hr|]. rewrite Hs. f_equal.
    apply flat_map_singletons. intros m Hm.
    destruct (fresh_listeners tr st Hfresh Hafter) as [Hnd _].
    pose proof (count_occ_NoDup_In _ _ Hnd (Hms m Hm)) as Hone.
    unfold socket in *. rewrite Hone, Hv. reflexivity.
Qed.

(** The two peers of the end-to-end scenario: "hello", then "world". *)
Lemma C1_hello_world :
  fresh_sockets [Connection 10; Connection 20] /\
  exists st',
    run (messages [(20, VStr (lit "hello")); (20, VStr (lit "world"))])
        two_connected = Ok tt st' /\
    sent st' = [(10, VStr (lit "hello")); (10, VStr (lit "world"))].
Proof.
  assert (Hf : fresh_sockets [Connection 10; Connection 20]).
  { unfold fresh_sockets; simpl.
    constructor; [simpl; intros [H|[]]; discriminate|].
    constructor; [intros []|constructor]. }
  split; [exact Hf|].
  refine (proj1 (proj2 (C1_one_coerced_copy_in_order
            [Connection 10; Connection 20] two_connected 10 Hf eq_refl eq_refl))
            [(20, VStr (lit "hello")); (20, VStr (lit "world"))] _).
  simpl. intros m [<-|[<-|[]]]; simpl; auto.
Defined.

(** C2: the first socket accepted is put in the visualization slot and the
    second in the prism slot, whatever messages arrive before, between and
    after the two connections; and the first stays where it is whatever
    follows. *)
Theorem C2_first_visualization_second_prism :
  forall (a b : socket) (ms0 ms1 ms2 : list (socket * value)),
  exists st1 st2,
    after (messages ms0 ++ Connection a :: messages ms1) st1 /\
    visSocket st1 = Some a /\ prismSocket st1 = None /\
    after (messages ms0 ++ Connection a :: messages ms1 ++
           Connection b :: messages ms2) st2 /\
    visSocket st2 = Some a /\ prismSocket st2 = Some b /\
    forall tr, exists st3, run tr st2 = Ok tt st3 /\ visSocket st3 = Some a.
Proof.
  intros a b ms0 ms1 ms2.
  destruct (slots_after (messages ms0 ++ Connection a :: messages ms1))
    as (st1 & H1 & Hv1 & Hp1 & _).
  destruct (after_two_connections a b ms0 ms1 ms2) as (st2 & H2 & Hv2 & Hp2 & _).
  rewrite connections_app in Hv1, Hp1. simpl in *.
  rewrite !connections_messages in *. simpl in *.
  exists st1, st2. repeat split; try assumption.
  intros tr. destruct (run_total tr st2) as [st3 H3].
  exists st3. split; [exact H3|]. eapply run_visSocket; eauto.
Qed.

(** C3, as stated, fails: the third connection takes the prism slot from
    the second. *)
Lemma C3_third_connection_takes_prism_slot :
  run [Connection 10; Connection 20] init
  = Ok tt (mkState (Some 10) (Some 20) [20] []
             [LogText "Waiting for incoming of visualization and prism";
              LogText "Connected to visualization";
              LogText "Connected to prism"])
  /\ step (Connection 30)
       (mkState (Some 10) (Some 20) [20] []
          [LogText "Waiting for incoming of visualization and prism";
           LogText "Connected to visualization";
           LogText "Connected to prism"])
     = Ok tt (mkState (Some 10) (Some 30) [20; 30] []
                [LogText "Waiting for incoming of visualization and prism";
                 LogText "Connected to visualization";
                 LogText "Connected to prism";
                 LogText "Connected to prism"])
  /\ Some 30 <> Some 20.
Proof. split; [reflexivity | split; [reflexivity | discriminate]]. Qed.

(** C3, amended: after the first two connections have been assigned, a
    third incoming connection leaves the visualization slot unchanged and
    becomes the new value of the prism slot. *)
Theorem C3_third_connection_keeps_visualization :
  forall (a b c : socket) (ms0 ms1 ms2 : list (socket * value)),
  exists st st',
    after (messages ms0 ++ Connection a :: messages ms1 ++
           Connection b :: messages ms2) st /\
    visSocket st = Some a /\ prismSocket st = Some b /\
    step (Connection c) st = Ok tt st' /\
    visSocket st' = Some a /\ prismSocket st' = Some c.
Proof.
  intros a b c ms0 ms1 ms2.
  destruct (after_two_connections a b ms0 ms1 ms2) as (st & Ha & Hv & Hp & _).
  exists st. simpl. rewrite (on_connection_later st c a Hv).
  eexists. repeat split; eauto.
Qed.

(** C4: every connection after the first becomes the new value of the
    prism slot and gets a listener at that moment; the listeners of earlier
    prism sockets are never removed, and each still forwards what its own
    socket receives. *)
Theorem C4_later_connection_is_prism_with_listener :
  forall (tr : list event) (st : state) (first ws : socket),
    after tr st -> hd_error (connections tr) = Some first ->
    exists st1,
      step (Connection ws) st = Ok tt st1 /\
      prismSocket st1 = Some ws /\
      listeners st1 = listeners st ++ [ws] /\
      forall tr2, exists st2,
        run tr2 st1 = Ok tt st2 /\
        forall p, In p (listeners st1) ->
          In p (listeners st2) /\
          forall m, exists st3 k,
            step (Message p m) st2 = Ok tt st3 /\
            sent st3 = sent st2 ++ repeat (first, template m) (S k).
Proof.
  intros tr st first ws Ha Hfirst.
  destruct (after_shape tr st Ha) as (Hv & _ & _). rewrite Hfirst in Hv.
  change (step (Connection ws) st) with (on_connection ws st).
  rewrite (on_connection_later st ws first Hv).
  eexists. split; [reflexivity|].
  cbn [prismSocket listeners]. split; [reflexivity|]. split; [reflexivity|].
  intros tr2.
  match goal with |- context [run tr2 ?s] => set (st1 := s) end.
  destruct (run_total tr2 st1) as [st2 Hr]. exists st2. split; [exact Hr|].
  intros p Hp.
  destruct (run_listeners tr2 st1 st2 Hr) as [l Hl].
  assert (Hin : In p (listeners st2)).
  { rewrite Hl. apply in_or_app. now left. }
  split; [exact Hin|]. intros m.
  assert (Hv2 : visSocket st2 = Some first).
  { eapply run_visSocket; [|exact Hr]. reflexivity. }
  rewrite (step_message_set st2 first p m Hv2).
  pose proof (proj1 (count_occ_In Nat.eq_dec (listeners st2) p) Hin) as Hpos.
  destruct (count_occ Nat.eq_dec (listeners st2) p) as [|k] eqn:Hk; [lia|].
  eexists. exists k. split; reflexivity.
Qed.

(** A third peer connects; the second still has its listener. *)
Lemma C4_third_peer :
  exists st1,
    step (Connection 30)
      two_connected = Ok tt st1 /\
    prismSocket st1 = Some 30 /\
    listeners st1 = [20; 30] /\
    exists st3 k,
      step (Message 20 (VStr (lit "late"))) st1 = Ok tt st3 /\
      sent st3 = sent st1 ++ repeat (10, VStr (lit "late")) (S k).
Proof.
  destruct (C4_later_connection_is_prism_with_listener
              [Connection 10; Connection 20] two_connected 10 30 eq_refl eq_refl)
    as (st1 & Hs & Hp & Hl & Hlater).
  exists st1. repeat split; try assumption.
  destruct (Hlater []) as (st2 & Hr & Hkeep).
  injection Hr as <-.
  apply (Hkeep 20). rewrite Hl. simpl. auto.
Defined.

(** C5, as stated, fails: the prism slot is replaced by the third
    connection, which gets a listener and is relayed like the second. *)
Lemma C5_third_connection_is_relayed :
  run [Connection 10; Connection 20] init
  = Ok tt (mkState (Some 10) (Some 20) [20] []
             [LogText "Waiting for incoming of visualization and prism";
              LogText "Connected to visualization";
              LogText "Connected to prism"])
  /\ run [Connection 10; Connection 20; Connection 30;
          Message 30 (VStr (lit "x"))] init
     = Ok tt (mkState (Some 10) (Some 30) [20; 30]
                [(10, VStr (lit "x"))]
                [LogText "Waiting for incoming of visualization and prism";
                 LogText "Connected to visualization";
                 LogText "Connected to prism";
                 LogText "Connected to prism";
                 LogValue (VStr (lit "x"))])
  /\ Some 30 <> Some 20 /\ In 30 [20; 30].
Proof.
  split; [reflexivity|]. split; [reflexivity|].
  split; [discriminate | simpl; auto].
Qed.

(** C5, amended: in every reachable state each slot holds at most one
    connection and the visualization slot, once set, is never replaced;
    the prism slot is replaced by every connection accepted after the
    first, so that a third incoming connection becomes the prism slot and
    has a listener attached to it. *)
Theorem C5_slots_single_visualization_kept :
  forall st : state,
    reachable st ->
    (forall a b, visSocket st = Some a -> visSocket st = Some b -> a = b) /\
    (forall a b, prismSocket st = Some a -> prismSocket st = Some b -> a = b) /\
    (forall v tr, visSocket st = Some v ->
       exists st', run tr st = Ok tt st' /\ visSocket st' = Some v) /\
    (forall v ws, visSocket st = Some v ->
       exists st', step (Connection ws) st = Ok tt st' /\
                   prismSocket st' = Some ws /\ In ws (listeners st')).
Proof.
  intros st _. repeat split.
  - congruence.
  - congruence.
  - intros v tr Hv. destruct (run_total tr st) as [st' Hr].
    exists st'. split; [exact Hr|]. eapply run_visSocket; eauto.
  - intros v ws Hv. simpl. rewrite (on_connection_later st ws v Hv).
    eexists. split; [reflexivity|]. simpl. split; [reflexivity|].
    apply in_or_app. right. simpl. auto.
Qed.

(** The state after two connections is reachable, and a third connects. *)
Lemma C5_third_of_three :
  reachable two_connected /\
  exists st',
    step (Connection 30)
      two_connected = Ok tt st' /\
    prismSocket st' = Some 30 /\ In 30 (listeners st').
Proof.
  assert (Hr : reachable two_connected).
  { exists [Connection 10; Connection 20]. split; [|reflexivity].
    unfold fresh_sockets; simpl.
    constructor; [simpl; intros [H|[]]; discriminate|].
    constructor; [intros []|constructor]. }
  split; [exact Hr|].
  exact (proj2 (proj2 (proj2 (C5_slots_single_visualization_kept _ Hr)))
           10 30 eq_refl).
Defined.

(** C6: a message event while the visualization slot is unset sends
    nothing to any socket and throws nothing; so does a call of the
    listener itself. *)
Theorem C6_unset_slot_no_send_no_error :
  forall (st : state) (from : socket) (m : value),
    visSocket st = None ->
    (exists st', on_message m st = Ok tt st' /\ sent st' = sent st) /\
    (exists st', step (Message from m) st = Ok tt st' /\ sent st' = sent st).
Proof.
  intros st from m Hv. split.
  - rewrite on_message_spec, Hv. simpl. rewrite app_nil_r.
    eexists. split; reflexivity.
  - rewrite (step_message_unset st from m Hv).
    eexists. split; reflexivity.
Qed.

(** A state with a listener on socket 20 and no visualization socket. *)
Lemma C6_listener_without_visualization :
  (exists st', on_message (VStr (lit "ping")) (mkState None (Some 20) [20] [] [])
               = Ok tt st' /\ sent st' = []) /\
  (exists st', step (Message 20 (VStr (lit "ping")))
                 (mkState None (Some 20) [20] [] [])
               = Ok tt st' /\ sent st' = []).
Proof.
  exact (C6_unset_slot_no_send_no_error
           (mkState None (Some 20) [20] [] []) 20 (VStr (lit "ping")) eq_refl).
Defined.

(** C7: once the first connection has set the visualization slot, no later
    connection or message event clears or overwrites it. *)
Theorem C7_visualization_slot_is_kept :
  (forall (ms0 : list (socket * value)) (ws : socket) (tr : list event),
     exists st1 st2,
       after (messages ms0 ++ [Connection ws]) st1 /\
       visSocket st1 = Some ws /\
       run tr st1 = Ok tt st2 /\
       visSocket st2 = Some ws) /\
  (forall (st : state) (v : socket) (tr : list event),
     visSocket st = Some v ->
     exists st', run tr st = Ok tt st' /\ visSocket st' = Some v).
Proof.
  assert (Hkeep : forall st v tr, visSocket st = Some v ->
            exists st', run tr st = Ok tt st' /\ visSocket st' = Some v).
  { intros st v tr Hv. destruct (run_total tr st) as [st' Hr].
    exists st'. split; [exact Hr|]. eapply run_visSocket; eauto. }
  split; [|exact Hkeep].
  intros ms0 ws tr.
  destruct (slots_after (messages ms0 ++ [Connection ws])) as (st1 & H1 & Hv & _).
  rewrite connections_app, connections_messages in Hv. simpl in Hv.
  destruct (Hkeep st1 ws tr Hv) as (st2 & Hr & Hv2).
  exists st1, st2. auto.
Qed.

(** Socket 10 stays in the slot through two connections and a message. *)
Lemma C7_after_more_peers :
  exists st',
    run [Connection 20; Message 20 (VStr (lit "m")); Connection 30]
        (mkState (Some 10) None [] [] []) = Ok tt st' /\
    visSocket st' = Some 10.
Proof.
  exact (proj2 C7_visualization_slot_is_kept
           (mkState (Some 10) None [] [] []) 10
           [Connection 20; Message 20 (VStr (lit "m")); Connection 30] eq_refl).
Defined.

(** C8: the socket in the visualization slot never has a listener, so a
    message it receives is forwarded to no one: the relay is one-way.  The
    server hands a new socket to the ['connection'] listener each time
    ([fresh_sockets]). *)
Theorem C8_visualization_socket_has_no_listener :
  forall (tr : list event) (st : state) (v : socket),
    fresh_sockets tr -> after tr st -> visSocket st = Some v ->
    ~ In v (listeners st) /\
    forall m, exists st',
      step (Message v m) st = Ok tt st' /\ sent st' = sent st.
Proof.
  intros tr st v Hf Ha Hv.
  destruct (fresh_listeners tr st Hf Ha) as [_ Hnot].
  specialize (Hnot v Hv). split; [exact Hnot|]. intros m.
  rewrite (step_message_set st v v m Hv).
  rewrite (proj1 (count_occ_not_In Nat.eq_dec (listeners st) v) Hnot).
  simpl. rewrite app_nil_r. eexists. split; reflexivity.
Qed.

(** The visualization peer, socket 10, sends "hi": nothing is forwarded. *)
Lemma C8_visualization_peer_speaks :
  fresh_sockets [Connection 10; Connection 20] /\
  ~ In 10 [20] /\
  exists st',
    step (Message 10 (VStr (lit "hi")))
      two_connected = Ok tt st' /\
    sent st' = [].
Proof.
  assert (Hf : fresh_sockets [Connection 10; Connection 20]).
  { unfold fresh_sockets; simpl.
    constructor; [simpl; intros [H|[]]; discriminate|].
    constructor; [intros []|constructor]. }
  split; [exact Hf|].
  destruct (C8_visualization_socket_has_no_listener
              [Connection 10; Connection 20] two_connected 10 Hf eq_refl eq_refl)
    as [Hnot Hsend].
  split; [exact Hnot | exact (Hsend (VStr (lit "hi")))].
Defined.

(** C9: for every message [m] forwarded, that is received by a listener
    while the visualization slot is set, what the visualization socket is
    sent is the string [`${m}`] made from [m], not [m] itself: the listener
    sends exactly that string to the socket in the slot, a message event
    sends it once per listener of the sender, and where the string is not
    [m], as for every [Buffer], no payload sent is the value received. *)
Theorem C9_payload_is_the_template_string :
  forall (st : state) (v from : socket) (m : value),
    visSocket st = Some v -> In from (listeners st) ->
    (exists st',
        on_message m st = Ok tt st' /\
        sent st' = sent st ++ [(v, VStr (ToString m))] /\
        (VStr (ToString m) <> m -> sent st' <> sent st ++ [(v, m)])) /\
    (exists st' k,
        step (Message from m) st = Ok tt st' /\
        sent st' = sent st ++ repeat (v, VStr (ToString m)) (S k) /\
        (VStr (ToString m) <> m ->
         Forall (fun e => snd e <> m) (repeat (v, VStr (ToString m)) (S k)))) /\
    (forall b, m = VBuf b -> VStr (ToString m) <> m).
Proof.
  intros st v from m Hv Hin. split; [|split].
  - rewrite on_message_spec, Hv. eexists. split; [reflexivity|].
    cbn [sent forwarded]. unfold template. split; [reflexivity|].
    intros Hne Heq. apply app_inv_head in Heq.
    injection Heq as Heq. exact (Hne Heq).
  - rewrite (step_message_set st v from m Hv).
    pose proof (proj1 (count_occ_In Nat.eq_dec (listeners st) from) Hin) as Hpos.
    destruct (count_occ Nat.eq_dec (listeners st) from) as [|k]; [lia|].
    eexists. exists k. split; [reflexivity|].
    cbn [sent]. unfold template. split; [reflexivity|].
    intros Hne. apply Forall_forall. intros e He.
    apply repeat_spec in He. subst e. exact Hne.
  - intros b ->. discriminate.
Qed.

(** The one-byte [Buffer] 0xFF is forwarded to socket 10 as the string
    U+FFFD. *)
Lemma C9_binary_message :
  visSocket (mkState (Some 10) (Some 20) [20] [] []) = Some 10 /\
  In 20 (listeners (mkState (Some 10) (Some 20) [20] [] [])) /\
  VStr (ToString (VBuf [Byte.xff])) <> VBuf [Byte.xff] /\
  exists st',
    on_message (VBuf [Byte.xff]) (mkState (Some 10) (Some 20) [20] [] [])
    = Ok tt st' /\
    sent st' = [(10, VStr [0xFFFD%Z])] /\
    sent st' <> [(10, VBuf [Byte.xff])].
Proof.
  assert (Hin : In 20 (listeners (mkState (Some 10) (Some 20) [20] [] []))).
  { simpl. auto. }
  destruct (C9_payload_is_the_template_string
              (mkState (Some 10) (Some 20) [20] [] []) 10 20 (VBuf [Byte.xff])
              eq_refl Hin)
    as ((st' & Hs & Hsent & Hdiff) & _ & Hbuf).
  pose proof (Hbuf [Byte.xff] eq_refl) as Hne.
  split; [reflexivity|]. split; [exact Hin|]. split; [exact Hne|].
  exists st'. split; [exact Hs|]. split; [exact Hsent | exact (Hdiff Hne)].
Defined.

(** C10: in every state reached from the initial one by connection and
    message events, a socket has a listener only if the visualization slot
    is set; so every call of a listener finds the slot set and sends: a
    message event adds as many payloads as the sending socket has
    listeners, none of them skipping. *)
Theorem C10_listener_only_when_visualization_set :
  forall (tr : list event) (st : state),
    after tr st ->
    (forall c, In c (listeners st) -> not_null (visSocket st) = true) /\
    (forall c m, In c (listeners st) ->
       exists v, visSocket st = Some v /\
         on_message m st =
         (console_log (LogValue m) ;; send_of (Some v) (template m)) st) /\
    (forall from m, exists st',
       step (Message from m) st = Ok tt st' /\
       length (sent st') =
       length (sent st) + count_occ Nat.eq_dec (listeners st) from).
Proof.
  intros tr st Ha.
  destruct (after_shape tr st Ha) as (Hv & _ & Hl).
  assert (Hset : forall c, In c (listeners st) -> exists v, visSocket st = Some v).
  { intros c Hc. rewrite Hl in Hc. rewrite Hv.
    destruct (connections tr) as [|v cs]; [destruct Hc | exists v; reflexivity]. }
  repeat split.
  - intros c Hc. destruct (Hset c Hc) as [v ->]. reflexivity.
  - intros c m Hc. destruct (Hset c Hc) as [v Hsome]. exists v.
    split; [exact Hsome|].
    unfold on_message, bind, console_log, read. simpl. now rewrite Hsome.
  - intros from m. destruct (visSocket st) as [v|] eqn:Hvis.
    + rewrite (step_message_set st v from m Hvis).
      eexists. split; [reflexivity|]. simpl.
      now rewrite length_app, repeat_length.
    + rewrite (step_message_unset st from m Hvis).
      eexists. split; [reflexivity|]. simpl.
      assert (Hnil : listeners st = []).
      { rewrite Hl. destruct (connections tr); [reflexivity | discriminate]. }
      rewrite Hnil. simpl. lia.
Qed.

(** Three peers: the listener of socket 30 finds the slot set and sends. *)
Lemma C10_two_prism_peers :
  not_null (Some 10) = true /\
  exists st',
    step (Message 30 (VStr (lit "m")))
      three_connected = Ok tt st' /\
    length (sent st') = 1.
Proof.
  destruct (C10_listener_only_when_visualization_set
              [Connection 10; Connection 20; Connection 30] three_connected eq_refl)
    as (Hguard & _ & Hcount).
  split.
  - apply (Hguard 30). simpl. auto.
  - exact (Hcount 30 (VStr (lit "m"))).
Defined.

(** ** Further properties of the script *)

Section Invariants.

Variable P : state -> Prop.
Hypothesis P_step :
  forall ev st st', P st -> step ev st = Ok tt st' -> P st'.

Lemma run_invariant (tr : list event) :
  forall st st', P st -> run tr st = Ok tt st' -> P st'.
Proof.
  induction tr as [|ev tr IH]; intros st st' HP; simpl.
  - unfold ret. now intros [= <-].
  - unfold bind. destruct (step ev st) as [[] st1|e] eqn:Hs; [|discriminate].
    apply IH. eapply P_step; eauto.
Qed.

End Invariants.

Lemma logged_values_app (l1 l2 : list log_entry) :
  logged_values (l1 ++ l2) = logged_values l1 ++ logged_values l2.
Proof.
  induction l1 as [|[s|v] l1 IH]; simpl; [reflexivity|exact IH|now rewrite IH].
Qed.

Lemma logged_values_repeat (m : value) (n : nat) :
  logged_values (repeat (LogValue m) n) = repeat m n.
Proof. induction n as [|n IH]; simpl; [reflexivity | now rewrite IH]. Qed.

Lemma map_repeat {A B} (f : A -> B) (x : A) (n : nat) :
  map f (repeat x n) = repeat (f x) n.
Proof. induction n as [|n IH]; simpl; [reflexivity | now rewrite IH]. Qed.

(** A step, whatever the event, in one equation per case. *)
Lemma step_cases (ev : event) (st st' : state) :
  step ev st = Ok tt st' ->
  match ev with
  | Connection ws =>
      sent st' = sent st /\
      match visSocket st with
      | Some v =>
          visSocket st' = Some v /\ prismSocket st' = Some ws /\
          listeners st' = listeners st ++ [ws] /\
          console st' = console st ++ [LogText "Connected to prism"]
      | None =>
          visSocket st' = Some ws /\ prismSocket st' = prismSocket st /\
          listeners st' = listeners st ++
                          match prismSocket st with Some p => [p] | None => [] end /\
          console st' = console st ++ [LogText "Connected to visualization"]
      end
  | Message from m =>
      visSocket st' = visSocket st /\ prismSocket st' = prismSocket st /\
      listeners st' = listeners st /\
      sent st' = sent st ++
                 concat (repeat (forwarded (visSocket st) m)
                           (count_occ Nat.eq_dec (listeners st) from)) /\
      console st' = console st ++
                    repeat (LogValue m) (count_occ Nat.eq_dec (listeners st) from)
  end.
Proof.
  destruct ev as [ws|from m]; simpl.
  - destruct (visSocket st) as [v|] eqn:Hv.
    + rewrite (on_connection_later st ws v Hv). intros [= <-]. simpl. auto.
    + rewrite (on_connection_first st ws Hv).
      destruct (prismSocket st); intros [= <-]; simpl; rewrite ?app_nil_r; auto.
  - rewrite emit_message_spec. intros [= <-]. simpl. auto.
Qed.

(** X1: after any trace the slots and the listeners are a function of the
    connections alone: [visSocket] holds the first socket accepted,
    [prismSocket] the last one accepted after it ([null] while there is
    none), and the listeners are the sockets accepted after the first, in
    order.  Message events have no part in it. *)
Theorem X1_slots_in_closed_form :
  forall tr : list event,
  exists st,
    after tr st /\
    visSocket st = hd_error (connections tr) /\
    prismSocket st = last_error (tl (connections tr)) /\
    listeners st = tl (connections tr).
Proof. intros tr. apply slots_after. Qed.

(** X2: the script never calls a method on a [null] slot: from any state
    of the slots and the listeners, reachable or not, no sequence of
    events raises the [TypeError] of [null.on] or [null.send], because
    each call is behind its null check.  (What [send] itself does on a
    socket whose peer has gone is not modelled.) *)
Theorem X2_no_method_call_on_null :
  forall (tr : list event) (st : state),
    (exists st', run tr st = Ok tt st') /\
    (forall property, run tr st <> Throw (TypeError property)).
Proof.
  intros tr st. destruct (run_total tr st) as [st' Hr].
  split; [exists st'; exact Hr|]. intros property. rewrite Hr. discriminate.
Qed.

(** X3: whatever the trace, every [send] is a call on the first socket
    accepted, and its data is a string: no other socket is ever sent
    anything, and no [Buffer] is ever sent. *)
Theorem X3_only_first_socket_is_sent_strings :
  forall tr : list event,
  exists st,
    after tr st /\
    Forall (fun e => hd_error (connections tr) = Some (fst e) /\
                     exists s, snd e = VStr s)
           (sent st).
Proof.
  intros tr. destruct (run_total tr init) as [st Hr]. exists st.
  split; [exact Hr|].
  destruct (after_shape tr st Hr) as (Hv & _ & _). rewrite <- Hv.
  revert Hr.
  apply (run_invariant
           (fun st => Forall (fun e => visSocket st = Some (fst e) /\
                                       exists s, snd e = VStr s) (sent st)));
    [|constructor].
  clear. intros ev st st' HP Hs. apply step_cases in Hs.
  destruct ev as [ws|from m].
  - destruct Hs as [Hsent Hrest]. rewrite Hsent.
    destruct (visSocket st) as [v|] eqn:Hv.
    + destruct Hrest as (-> & _). exact HP.
    + destruct (sent st) as [|e l]; [constructor|].
      inversion HP as [|? ? [Habs _] _]. discriminate.
  - destruct Hs as (-> & _ & _ & -> & _).
    apply Forall_app. split; [exact HP|].
    destruct (visSocket st) as [v|]; simpl.
    + rewrite concat_repeat_singleton. apply Forall_forall.
      intros e He. apply repeat_spec in He. subst e. simpl.
      split; [reflexivity | eexists; reflexivity].
    + rewrite concat_repeat_nil. constructor.
Qed.

(** X4: as long as at most one socket has connected, nothing has been
    sent, whatever messages have arrived. *)
Theorem X4_nothing_sent_before_second_connection :
  forall (tr : list event) (st : state),
    after tr st -> length (connections tr) <= 1 -> sent st = [].
Proof.
  intros tr st Ha Hlen.
  destruct (after_shape tr st Ha) as (_ & _ & Hl).
  assert (Hnil : listeners st = []).
  { rewrite Hl. destruct (connections tr) as [|c [|c' cs]]; simpl in *;
      [reflexivity | reflexivity | lia]. }
  revert Hnil. revert Ha.
  apply (run_invariant (fun st => listeners st = [] -> sent st = []));
    [|reflexivity].
  clear. intros ev st st' HP Hs Hnil. apply step_cases in Hs.
  destruct ev as [ws|from m].
  - destruct Hs as [-> Hrest]. apply HP.
    destruct (visSocket st).
    + destruct Hrest as (_ & _ & Hl & _). rewrite Hnil in Hl.
      symmetry in Hl. apply app_eq_nil in Hl. destruct Hl as [_ Hl]. discriminate.
    + destruct Hrest as (_ & _ & Hl & _). rewrite Hnil in Hl.
      symmetry in Hl. apply app_eq_nil in Hl. tauto.
  - destruct Hs as (_ & _ & Hl & -> & _). rewrite Hnil in Hl.
    rewrite <- Hl. simpl. rewrite app_nil_r. apply HP. now symmetry.
Qed.

(** A lone peer, socket 20, talks before and after it is accepted. *)
Lemma X4_lone_peer_talks :
  after [Message 20 (VStr (lit "early")); Connection 20;
         Message 20 (VStr (lit "ping")); Message 20 (VBuf [Byte.xff])]
        (mkState (Some 20) None [] []
           [LogText "Waiting for incoming of visualization and prism";
            LogText "Connected to visualization"]) /\
  sent (mkState (Some 20) None [] []
          [LogText "Waiting for incoming of visualization and prism";
           LogText "Connected to visualization"]) = [].
Proof.
  split; [reflexivity|].
  apply (X4_nothing_sent_before_second_connection
           [Message 20 (VStr (lit "early")); Connection 20;
            Message 20 (VStr (lit "ping")); Message 20 (VBuf [Byte.xff])]).
  - reflexivity.
  - simpl. lia.
Defined.

(** X5: the console tells what was forwarded: after any trace, the data of
    the [send] calls are, in order, the strings made from the messages the
    listeners have logged.  No message is logged without being forwarded,
    and none is forwarded without being logged. *)
Theorem X5_sent_data_are_the_logged_messages :
  forall tr : list event,
  exists st,
    after tr st /\
    map snd (sent st) = map template (logged_values (console st)).
Proof.
  intros tr. destruct (run_total tr init) as [st Hr]. exists st.
  split; [exact Hr|].
  cut ((visSocket st = None -> listeners st = [] /\ prismSocket st = None) /\
       map snd (sent st) = map template (logged_values (console st)));
    [tauto|].
  revert Hr.
  apply (run_invariant
           (fun st =>
              (visSocket st = None -> listeners st = [] /\ prismSocket st = None) /\
              map snd (sent st) = map template (logged_values (console st))));
    [|split; [auto | reflexivity]].
  clear. intros ev st st' [Hnone Heq] Hs. apply step_cases in Hs.
  destruct ev as [ws|from m].
  - destruct Hs as [Hsent Hrest]. rewrite Hsent.
    destruct (visSocket st) as [v|] eqn:Hv.
    + destruct Hrest as (-> & _ & _ & ->). split; [discriminate|].
      rewrite logged_values_app. simpl. now rewrite app_nil_r.
    + destruct Hrest as (-> & _ & _ & ->). split; [discriminate|].
      rewrite logged_values_app. simpl. now rewrite app_nil_r.
  - destruct Hs as (Hv' & Hp' & Hl' & -> & ->).
    rewrite Hv', Hp', Hl'. split; [exact Hnone|].
    rewrite logged_values_app, logged_values_repeat, !map_app, Heq. f_equal.
    destruct (visSocket st) as [v|]; simpl.
    + now rewrite concat_repeat_singleton, !map_repeat.
    + destruct (Hnone eq_refl) as [-> _]. reflexivity.
Qed.

Lemma existsb_eqb_In (c : socket) (l : list socket) :
  existsb (Nat.eqb c) l = true <-> In c l.
Proof.
  rewrite existsb_exists. split.
  - intros (x & Hin & Heq). apply Nat.eqb_eq in Heq. now subst.
  - intros Hin. exists c. split; [exact Hin | apply Nat.eqb_refl].
Qed.

Lemma count_occ_NoDup_existsb (l : list nat) (c : nat) :
  NoDup l ->
  count_occ Nat.eq_dec l c = if existsb (Nat.eqb c) l then 1 else 0.
Proof.
  intros Hnd. destruct (existsb (Nat.eqb c) l) eqn:He.
  - apply count_occ_NoDup_In; [exact Hnd | now apply existsb_eqb_In].
  - apply count_occ_not_In. intros Hin. apply existsb_eqb_In in Hin. congruence.
Qed.

(** The script against [relayed], from any state in which no socket has two
    listeners, no socket to come has one, and listeners wait for the
    visualization slot to be set. *)
Lemma run_relayed (tr : list event) :
  forall st,
    NoDup (listeners st ++ connections tr) ->
    (visSocket st = None -> listeners st = [] /\ prismSocket st = None) ->
    exists st',
      run tr st = Ok tt st' /\
      sent st' = sent st ++ relayed (visSocket st) (listeners st) tr.
Proof.
  induction tr as [|[ws|from m] tr IH]; intros st Hnd Hnone.
  - exists st. simpl. unfold ret. now rewrite app_nil_r.
  - simpl run. unfold bind.
    change (step (Connection ws) st) with (on_connection ws st).
    simpl in Hnd.
    destruct (visSocket st) as [v|] eqn:Hv.
    + rewrite (on_connection_later st ws v Hv).
      match goal with |- context [run tr ?s] => destruct (IH s) as (st' & Hr & Hs) end.
      * simpl. rewrite <- app_assoc. exact Hnd.
      * discriminate.
      * exists st'. split; [exact Hr|]. rewrite Hs. reflexivity.
    + destruct (Hnone eq_refl) as [Hl Hp].
      rewrite (on_connection_first st ws Hv), Hp.
      match goal with |- context [run tr ?s] => destruct (IH s) as (st' & Hr & Hs) end.
      * simpl. rewrite Hl in *. simpl in *. now inversion Hnd.
      * discriminate.
      * exists st'. split; [exact Hr|]. rewrite Hs. reflexivity.
  - simpl run. unfold bind.
    change (step (Message from m) st) with (emit_message from m st).
    rewrite emit_message_spec.
    match goal with |- context [run tr ?s] => destruct (IH s) as (st' & Hr & Hs) end.
    + exact Hnd.
    + exact Hnone.
    + exists st'. split; [exact Hr|]. rewrite Hs. simpl.
      rewrite <- app_assoc. f_equal.
      apply NoDup_app_remove_r in Hnd.
      pose proof (count_occ_NoDup_existsb (listeners st) from Hnd) as Hc.
      unfold socket in *. rewrite Hc.
      destruct (visSocket st) as [v|].
      * destruct (existsb (Nat.eqb from) (listeners st)); reflexivity.
      * destruct (Hnone eq_refl) as [-> _]. reflexivity.
Qed.

(** X6: with a new socket per peer, the [send] calls after a trace are
    exactly what [relayed] computes from it: each message of a socket
    accepted after the first, sent at or after its acceptance, goes once,
    as a string, to the first socket accepted, in the order of arrival;
    every other message is dropped, and nothing is replayed later. *)
Theorem X6_sent_is_relayed :
  forall tr : list event,
    fresh_sockets tr ->
    exists st, after tr st /\ sent st = relayed None [] tr.
Proof.
  intros tr Hf.
  destruct (run_relayed tr init) as (st & Hr & Hs).
  - exact Hf.
  - auto.
  - exists st. split; [exact Hr | exact Hs].
Qed.

(** Early messages are dropped, later ones go through in order. *)
Lemma X6_early_messages_dropped :
  fresh_sockets [Message 20 (VStr (lit "a")); Connection 10;
                 Message 10 (VStr (lit "b")); Message 20 (VStr (lit "c"));
                 Connection 20; Message 20 (VStr (lit "d"));
                 Message 10 (VStr (lit "e")); Message 20 (VBuf [Byte.x66])] /\
  exists st,
    after [Message 20 (VStr (lit "a")); Connection 10;
           Message 10 (VStr (lit "b")); Message 20 (VStr (lit "c"));
           Connection 20; Message 20 (VStr (lit "d"));
           Message 10 (VStr (lit "e")); Message 20 (VBuf [Byte.x66])] st /\
    sent st = [(10, VStr (lit "d")); (10, VStr (lit "f"))].
Proof.
  assert (Hf : fresh_sockets
                 [Message 20 (VStr (lit "a")); Connection 10;
                  Message 10 (VStr (lit "b")); Message 20 (VStr (lit "c"));
                  Connection 20; Message 20 (VStr (lit "d"));
                  Message 10 (VStr (lit "e")); Message 20 (VBuf [Byte.x66])]).
  { unfold fresh_sockets; simpl.
    constructor; [simpl; intros [H|[]]; discriminate|].
    constructor; [intros []|constructor]. }
  split; [exact Hf|].
  exact (X6_sent_is_relayed _ Hf).
Defined.

Lemma last_In {A} (l : list A) (d : A) : l <> [] -> In (last l d) l.
Proof.
  induction l as [|z l IH]; intros Hne; [congruence|].
  destruct l as [|w l]; [left; reflexivity|].
  right. apply IH. discriminate.
Qed.

Lemma last_error_In {A} (l : list A) (x : A) :
  last_error l = Some x -> In x l.
Proof.
  destruct l as [|y l]; simpl; [discriminate|].
  intros [= <-]. destruct l as [|z l]; [left; reflexivity|].
  right. apply last_In. discriminate.
Qed.

(** X7: with a new socket per peer, a listener is registered exactly once
    on every socket accepted after the first and on no other socket; the
    socket in the prism slot is one of those and is never the socket in
    the visualization slot. *)
Theorem X7_one_listener_per_later_socket :
  forall (tr : list event) (st : state),
    fresh_sockets tr -> after tr st ->
    (forall c, In c (tl (connections tr)) ->
               count_occ Nat.eq_dec (listeners st) c = 1) /\
    (forall c, ~ In c (tl (connections tr)) ->
               count_occ Nat.eq_dec (listeners st) c = 0) /\
    (forall p, prismSocket st = Some p ->
               In p (tl (connections tr)) /\ visSocket st <> Some p).
Proof.
  intros tr st Hf Ha.
  destruct (fresh_listeners tr st Hf Ha) as [Hnd Hvis].
  destruct (after_shape tr st Ha) as (Hv & Hp & Hl).
  split; [|split].
  - intros c Hc. apply count_occ_NoDup_In; [exact Hnd | now rewrite Hl].
  - intros c Hc. apply count_occ_not_In. now rewrite Hl.
  - intros p Hsome. rewrite Hp in Hsome. apply last_error_In in Hsome.
    split; [exact Hsome|]. intros Habs. apply (Hvis p Habs). now rewrite Hl.
Qed.

(** Three peers: sockets 20 and 30 have one listener each, socket 10 none. *)
Lemma X7_three_peers :
  fresh_sockets [Connection 10; Connection 20; Connection 30] /\
  count_occ Nat.eq_dec (listeners three_connected) 20 = 1 /\
  count_occ Nat.eq_dec (listeners three_connected) 10 = 0 /\
  visSocket three_connected <> Some 30.
Proof.
  assert (Hf : fresh_sockets [Connection 10; Connection 20; Connection 30]).
  { unfold fresh_sockets; simpl.
    constructor; [simpl; intros [H|[H|[]]]; discriminate|].
    constructor; [simpl; intros [H|[]]; discriminate|].
    constructor; [intros []|constructor]. }
  split; [exact Hf|].
  destruct (X7_one_listener_per_later_socket
              [Connection 10; Connection 20; Connection 30] three_connected
              Hf eq_refl) as (Hone & Hzero & Hprism).
  split; [|split].
  - apply Hone. simpl. auto.
  - apply Hzero. simpl. intros [H|[H|[]]]; discriminate.
  - exact (proj2 (Hprism 30 eq_refl)).
Defined.

(** The console against [transcript], from the states of [run_relayed]. *)
Lemma run_transcript (tr : list event) :
  forall st,
    NoDup (listeners st ++ connections tr) ->
    (visSocket st = None -> listeners st = [] /\ prismSocket st = None) ->
    exists st',
      run tr st = Ok tt st' /\
      console st' = console st ++ transcript (visSocket st) (listeners st) tr.
Proof.
  induction tr as [|[ws|from m] tr IH]; intros st Hnd Hnone.
  - exists st. simpl. unfold ret. now rewrite app_nil_r.
  - simpl run. unfold bind.
    change (step (Connection ws) st) with (on_connection ws st).
    simpl in Hnd.
    destruct (visSocket st) as [v|] eqn:Hv.
    + rewrite (on_connection_later st ws v Hv).
      match goal with |- context [run tr ?s] => destruct (IH s) as (st' & Hr & Hs) end.
      * simpl. rewrite <- app_assoc. exact Hnd.
      * discriminate.
      * exists st'. split; [exact Hr|]. rewrite Hs. simpl.
        now rewrite <- app_assoc.
    + destruct (Hnone eq_refl) as [Hl Hp].
      rewrite (on_connection_first st ws Hv), Hp.
      match goal with |- context [run tr ?s] => destruct (IH s) as (st' & Hr & Hs) end.
      * simpl. rewrite Hl in *. simpl in *. now inversion Hnd.
      * discriminate.
      * exists st'. split; [exact Hr|]. rewrite Hs. simpl.
        now rewrite <- app_assoc.
  - simpl run. unfold bind.
    change (step (Message from m) st) with (emit_message from m st).
    rewrite emit_message_spec.
    match goal with |- context [run tr ?s] => destruct (IH s) as (st' & Hr & Hs) end.
    + exact Hnd.
    + exact Hnone.
    + exists st'. split; [exact Hr|]. rewrite Hs. simpl.
      rewrite <- app_assoc. f_equal.
      apply NoDup_app_remove_r in Hnd.
      pose proof (count_occ_NoDup_existsb (listeners st) from Hnd) as Hc.
      unfold socket in *. rewrite Hc.
      destruct (existsb (Nat.eqb from) (listeners st)); reflexivity.
Qed.

(** X8: with a new socket per peer, the calls of [console.log] after a
    trace are, in order: the startup line; for each connection one line,
    "Connected to visualization" for the first and "Connected to prism"
    for every later one; and for each message that is relayed, and for no
    other, the message itself as it was received, not the string that is
    sent. *)
Theorem X8_console_is_the_transcript :
  forall tr : list event,
    fresh_sockets tr ->
    exists st,
      after tr st /\
      console st =
      LogText "Waiting for incoming of visualization and prism" ::
      transcript None [] tr.
Proof.
  intros tr Hf.
  destruct (run_transcript tr init) as (st & Hr & Hs).
  - exact Hf.
  - auto.
  - exists st. split; [exact Hr | exact Hs].
Qed.

(** A message that reads like a line of the script is logged as the
    message it is; a [Buffer] is logged as a [Buffer]. *)
Lemma X8_messages_among_the_lines :
  fresh_sockets [Connection 10; Message 10 (VStr (lit "x")); Connection 20;
                 Message 20 (VStr (lit "Connected to prism"));
                 Message 20 (VBuf [Byte.xff])] /\
  exists st,
    after [Connection 10; Message 10 (VStr (lit "x")); Connection 20;
           Message 20 (VStr (lit "Connected to prism"));
           Message 20 (VBuf [Byte.xff])] st /\
    console st =
    [LogText "Waiting for incoming of visualization and prism";
     LogText "Connected to visualization";
     LogText "Connected to prism";
     LogValue (VStr (lit "Connected to prism"));
     LogValue (VBuf [Byte.xff])].
Proof.
  assert (Hf : fresh_sockets
                 [Connection 10; Message 10 (VStr (lit "x")); Connection 20;
                  Message 20 (VStr (lit "Connected to prism"));
                  Message 20 (VBuf [Byte.xff])]).
  { unfold fresh_sockets; simpl.
    constructor; [simpl; intros [H|[]]; discriminate|].
    constructor; [intros []|constructor]. }
  split; [exact Hf|].
  exact (X8_console_is_the_transcript _ Hf).
Defined.
